(** * One More Step (game.js): a shallow embedding of the simulation core

    The embedding follows [game.js] function by function.  The script's
    global variables become the fields of one [State] record that every
    function receives and returns; the two globals that no code ever
    assigns ([walls] and [goal]) stay global constants.

    Numbers.  Every JavaScript number is an IEEE double.
    - Coordinates, sizes and speeds are multiples of 1/2 of magnitude below
      2^11 ([50 + 40 k], [300 - 1.5 k], ...): sums, differences and the
      products with [1], [-1] and the step length are exact in doubles, so
      they are modelled by exact rationals [Q].
    - [energy], [steps] and the clock are integers far below 2^53: [Z].
    - Particle fields and the shake amount come from [Math.random] and from
      repeated subtraction of [0.02] and multiplication by [0.9], where the
      rounding matters: they are modelled by binary64 floats ([PrimFloat]).

    Calls into the DOM and the audio glue are recorded, in call order, in the
    [log] field.  Drawing only reads the state and is left out; the only
    state change of the render phase, the decay of [shakeAmount], is kept. *)

From Stdlib Require Import ZArith QArith Lia Lqa List Bool String PrimFloat.
Import ListNotations.

Set Warnings "-inexact-float".

Local Open Scope Z_scope.
Local Open Scope Q_scope.

(** ** Comparisons on numbers *)

(** JavaScript [a < b] on the rational model. *)
Definition Qltb (a b : Q) : bool := (Qnum a * QDen b <? Qnum b * QDen a)%Z.

(** JavaScript [a > b]. *)
Definition Qgtb (a b : Q) : bool := Qltb b a.

(** ** Data *)

Inductive GameState := title | playing | won | lost.

Module Player.
Record t := mk
  { x : Q; y : Q; size : Q; speed : Q; energy : Z; steps : Z }.
End Player.

(** [goal.pulseSize] is written and read by [drawGoal] only and is left out. *)
Module Goal.
Record t := mk { x : Q; y : Q; size : Q }.
End Goal.

Module Wall.
Record t := mk { x : Q; y : Q; width : Q; height : Q }.
End Wall.

Module Hazard.
Record t := mk
  { x : Q; y : Q; width : Q; height : Q;
    speedX : Q; speedY : Q; direction : Q }.
End Hazard.

(** [color] holds the hue drawn by [Math.random() * 360]; the surrounding
    [hsl(..., 70%, 60%)] text is constant. *)
Module Particle.
Record t := mk
  { x : float; y : float; vx : float; vy : float;
    color : float; size : float; life : float }.
End Particle.

(** Calls to the collaborators (audio and screens), in the order made. *)
Inductive Effect :=
| MoveSound | HitSound | WinSound | LoseSound
| WinScreen | LoseScreen
| Hud (energy steps : Z)
| Timer (elapsed : Z)
| PlayView | TitleView | HowToPlayView
| AudioInit | MuteLabel (muted : bool).

Record State := mkState
  { gameState : GameState;
    isMuted : bool;
    player : Player.t;
    hazards : list Hazard.t;
    startTime : Z;
    elapsedTime : Z;
    particles : list Particle.t;
    shakeAmount : float;
    log : list Effect }.

(** ** Globals of the script *)

Definition canvas_width : float := 800%float.
Definition canvas_height : float := 600%float.

Definition goal : Goal.t := Goal.mk 750 50 40.

Definition walls : list Wall.t :=
  [ Wall.mk 0 0 800 20;       (* top *)
    Wall.mk 0 580 800 20;     (* bottom *)
    Wall.mk 0 0 20 600;       (* left *)
    Wall.mk 780 0 20 600;     (* right *)
    Wall.mk 200 100 20 300;
    Wall.mk 400 200 20 380;
    Wall.mk 600 20 20 400 ].

(** [1.5] is written [3 # 2]. *)
Definition initialHazards : list Hazard.t :=
  [ Hazard.mk 100 200 100 20 2 0 1;
    Hazard.mk 300 400 120 20 (3 # 2) 0 (-1);
    Hazard.mk 500 300 80 20 3 0 1 ].

(** The state once the script has been loaded, before its first frame. *)
Definition init : State :=
  {| gameState := title;
     isMuted := false;
     player := Player.mk 50 550 30 40 100 0;
     hazards := initialHazards;
     startTime := 0;
     elapsedTime := 0;
     particles := [];
     shakeAmount := 0%float;
     log := [] |}.

(** ** Field updates *)

Definition set_gameState (g : GameState) (s : State) : State :=
  mkState g (isMuted s) (player s) (hazards s) (startTime s) (elapsedTime s)
          (particles s) (shakeAmount s) (log s).

Definition set_isMuted (m : bool) (s : State) : State :=
  mkState (gameState s) m (player s) (hazards s) (startTime s) (elapsedTime s)
          (particles s) (shakeAmount s) (log s).

Definition set_player (p : Player.t) (s : State) : State :=
  mkState (gameState s) (isMuted s) p (hazards s) (startTime s) (elapsedTime s)
          (particles s) (shakeAmount s) (log s).

Definition set_hazards (hs : list Hazard.t) (s : State) : State :=
  mkState (gameState s) (isMuted s) (player s) hs (startTime s) (elapsedTime s)
          (particles s) (shakeAmount s) (log s).

Definition set_startTime (t : Z) (s : State) : State :=
  mkState (gameState s) (isMuted s) (player s) (hazards s) t (elapsedTime s)
          (particles s) (shakeAmount s) (log s).

Definition set_elapsedTime (t : Z) (s : State) : State :=
  mkState (gameState s) (isMuted s) (player s) (hazards s) (startTime s) t
          (particles s) (shakeAmount s) (log s).

Definition set_particles (ps : list Particle.t) (s : State) : State :=
  mkState (gameState s) (isMuted s) (player s) (hazards s) (startTime s)
          (elapsedTime s) ps (shakeAmount s) (log s).

Definition set_shakeAmount (a : float) (s : State) : State :=
  mkState (gameState s) (isMuted s) (player s) (hazards s) (startTime s)
          (elapsedTime s) (particles s) a (log s).

(** A call to a collaborator is appended to the log. *)
Definition emit (e : Effect) (s : State) : State :=
  mkState (gameState s) (isMuted s) (player s) (hazards s) (startTime s)
          (elapsedTime s) (particles s) (shakeAmount s) (log s ++ [e]).

Definition player_at (x y : Q) (p : Player.t) : Player.t :=
  Player.mk x y (Player.size p) (Player.speed p) (Player.energy p) (Player.steps p).

Definition player_energy (e : Z) (p : Player.t) : Player.t :=
  Player.mk (Player.x p) (Player.y p) (Player.size p) (Player.speed p) e (Player.steps p).

Definition player_steps (n : Z) (p : Player.t) : Player.t :=
  Player.mk (Player.x p) (Player.y p) (Player.size p) (Player.speed p) (Player.energy p) n.

Definition hazard_x (x : Q) (h : Hazard.t) : Hazard.t :=
  Hazard.mk x (Hazard.y h) (Hazard.width h) (Hazard.height h)
            (Hazard.speedX h) (Hazard.speedY h) (Hazard.direction h).

Definition hazard_direction (d : Q) (h : Hazard.t) : Hazard.t :=
  Hazard.mk (Hazard.x h) (Hazard.y h) (Hazard.width h) (Hazard.height h)
            (Hazard.speedX h) (Hazard.speedY h) d.

(** [l[i] = f l[i]].  The script only indexes [hazards] at 0, 1 and 2, and the
    array keeps its three elements for ever ([hazards_length] below); out of
    range, where JavaScript would raise a TypeError, the list is returned
    as it is. *)
Fixpoint updateAt {A : Type} (i : nat) (f : A -> A) (l : list A) : list A :=
  match l, i with
  | [], _ => []
  | a :: r, O => f a :: r
  | a :: r, S j => a :: updateAt j f r
  end.

(** ** Audio and screens (glue): each call is logged *)

Definition playMoveSound (s : State) : State := emit MoveSound s.
Definition playHitSound (s : State) : State := emit HitSound s.
Definition playWinSound (s : State) : State := emit WinSound s.
Definition playLoseSound (s : State) : State := emit LoseSound s.
Definition showWinScreen (s : State) : State := emit WinScreen s.
Definition showLoseScreen (s : State) : State := emit LoseScreen s.
Definition initAudio (s : State) : State := emit AudioInit s.

(** ** resetGame

    [now] is the value returned by [Date.now()]. *)
Definition resetGame (now : Z) (s : State) : State :=
  let p := player_steps 0 (player_energy 100 (player_at 50 550 (player s))) in
  let hs := updateAt 0 (fun h => hazard_direction 1 (hazard_x 100 h)) (hazards s) in
  let hs := updateAt 1 (fun h => hazard_direction (-1) (hazard_x 300 h)) hs in
  let hs := updateAt 2 (fun h => hazard_direction 1 (hazard_x 500 h)) hs in
  set_elapsedTime 0
    (set_startTime now
      (set_shakeAmount 0%float
        (set_particles [] (set_hazards hs (set_player p s))))).

(** ** Collision tests *)

(** The condition of the [if] inside [checkWallCollision]'s loop. *)
Definition hitsWall (s : State) (newX newY : Q) (wall : Wall.t) : bool :=
  Qltb newX (Wall.x wall + Wall.width wall) &&
  Qgtb (newX + Player.size (player s)) (Wall.x wall) &&
  Qltb newY (Wall.y wall + Wall.height wall) &&
  Qgtb (newY + Player.size (player s)) (Wall.y wall).

(** [for (let wall of walls) if (...) return true; return false]. *)
Definition checkWallCollision (s : State) (newX newY : Q) : bool :=
  existsb (hitsWall s newX newY) walls.

(** The condition of the [if] inside [checkHazardCollision]'s loop. *)
Definition hitsHazard (s : State) (hazard : Hazard.t) : bool :=
  Qltb (Player.x (player s)) (Hazard.x hazard + Hazard.width hazard) &&
  Qgtb (Player.x (player s) + Player.size (player s)) (Hazard.x hazard) &&
  Qltb (Player.y (player s)) (Hazard.y hazard + Hazard.height hazard) &&
  Qgtb (Player.y (player s) + Player.size (player s)) (Hazard.y hazard).

Definition checkHazardCollision (s : State) : bool :=
  existsb (hitsHazard s) (hazards s).

(** [Math.sqrt(a) < r] is decided on the squares: for a real [a >= 0] it
    holds exactly when [0 < r] and [a < r * r].  On the integer positions of
    the game the rounded square root gives the same answer: [r] is 35,
    [a] is an integer, and the double nearest to the root of an integer below
    1225 is below 35. *)
Definition checkGoalReached (s : State) : bool :=
  let p := player s in
  let ddx := Player.x p + Player.size p / 2 - (Goal.x goal + Goal.size goal / 2) in
  let ddy := Player.y p + Player.size p / 2 - (Goal.y goal + Goal.size goal / 2) in
  let r := Player.size p / 2 + Goal.size goal / 2 in
  Qltb 0 r && Qltb (ddx * ddx + ddy * ddy) (r * r).

(** ** Particles *)

(** The particle pushed by iteration [i] of [createConfetti]'s loop.  [rnd k]
    is the value of the [k]-th call to [Math.random()] made by this burst;
    an object literal evaluates its fields in order, so iteration [i] makes
    the calls [4 i .. 4 i + 3]. *)
Definition confetto (rnd : nat -> float) (i : nat) : Particle.t :=
  {| Particle.x := canvas_width / 2;
     Particle.y := canvas_height / 2;
     Particle.vx := (rnd (4 * i)%nat - 0.5) * 10;
     Particle.vy := (rnd (4 * i + 1)%nat - 0.5) * 10 - 5;
     Particle.color := rnd (4 * i + 2)%nat * 360;
     Particle.size := rnd (4 * i + 3)%nat * 5 + 2;
     Particle.life := 1 |}%float.

(** [for (let i = ...; ...; i++) particles.push(...)], with [n] iterations
    left. *)
Fixpoint confettiLoop (rnd : nat -> float) (n i : nat)
         (ps : list Particle.t) : list Particle.t :=
  match n with
  | O => ps
  | S n' => confettiLoop rnd n' (S i) (ps ++ [confetto rnd i])
  end.

Definition createConfetti (rnd : nat -> float) (s : State) : State :=
  set_particles (confettiLoop rnd 50 0 (particles s)) s.

(** The body of [updateParticles]'s loop up to the test. *)
Definition stepParticle (p : Particle.t) : Particle.t :=
  {| Particle.x := Particle.x p + Particle.vx p;
     Particle.y := Particle.y p + Particle.vy p;
     Particle.vx := Particle.vx p;
     Particle.vy := Particle.vy p + 0.3;
     Particle.color := Particle.color p;
     Particle.size := Particle.size p;
     Particle.life := Particle.life p - 0.02 |}%float.

(** The loop runs from the last index down to 0 and splices out the particle
    it has just updated: the tail of the list is treated before its head, and
    a removal never moves an element that is still to be visited. *)
Fixpoint updateParticlesLoop (ps : list Particle.t) : list Particle.t :=
  match ps with
  | [] => []
  | p :: rest =>
      let rest' := updateParticlesLoop rest in
      let p' := stepParticle p in
      if PrimFloat.leb (Particle.life p') 0 then rest' else p' :: rest'
  end.

Definition updateParticles (s : State) : State :=
  set_particles (updateParticlesLoop (particles s)) s.

(** ** Hazards *)

(** The body of [updateHazards]'s loop. *)
Definition updateHazard (hazard : Hazard.t) : Hazard.t :=
  let h := hazard_x (Hazard.x hazard + Hazard.speedX hazard * Hazard.direction hazard)
                    hazard in
  if Qltb (Hazard.x h) 30 || Qgtb (Hazard.x h + Hazard.width h) 770
  then hazard_direction (Hazard.direction h * -1) h
  else h.

Definition updateHazards (s : State) : State :=
  set_hazards (map updateHazard (hazards s)) s.

(** ** Timer and HUD *)

(** [Math.floor] of the quotient of two integers is [Z]'s division. *)
Definition updateTimer (now : Z) (s : State) : State :=
  match gameState s with
  | playing =>
      let s := set_elapsedTime ((now - startTime s) / 1000)%Z s in
      emit (Timer (elapsedTime s)) s
  | _ => s
  end.

Definition updateHUD (s : State) : State :=
  emit (Hud (Player.energy (player s)) (Player.steps (player s))) s.

(** ** movePlayer *)

Definition movePlayer (rnd : nat -> float) (dx dy : Q) (s : State) : State :=
  match gameState s with
  | playing =>
      let newX := Player.x (player s) + dx * Player.speed (player s) in
      let newY := Player.y (player s) + dy * Player.speed (player s) in
      if negb (checkWallCollision s newX newY) then
        let p := player_at newX newY (player s) in
        let p := player_steps (Player.steps p + 1)%Z p in
        let p := player_energy (Player.energy p - 1)%Z p in
        let s := playMoveSound (set_player p s) in
        (* Check if energy is gone *)
        let s :=
          if (Player.energy (player s) <=? 0)%Z
          then playLoseSound (showLoseScreen (set_gameState lost s))
          else s in
        (* Check if goal reached *)
        if checkGoalReached s
        then createConfetti rnd
               (playWinSound (showWinScreen (set_gameState won s)))
        else s
      else s
  | _ => s
  end.

(** ** gameLoop: one frame

    Drawing is omitted; [now] is the clock read by [updateTimer].  The call
    of [requestAnimationFrame] at the end asks for the next frame, which is
    the next [Frame] event below. *)
Definition decayShake (s : State) : State :=
  if PrimFloat.ltb 0 (shakeAmount s) then
    let a := (shakeAmount s * 0.9)%float in
    set_shakeAmount (if PrimFloat.ltb a 0.1 then 0%float else a) s
  else s.

Definition gameLoop (now : Z) (s : State) : State :=
  let s := decayShake s in
  match gameState s with
  | playing =>
      let s := updateParticles (updateHUD (updateTimer now (updateHazards s))) in
      (* Check hazard collision *)
      if checkHazardCollision s then
        let s := set_player (player_energy (Player.energy (player s) - 10)%Z (player s)) s in
        let s := playHitSound (set_shakeAmount 10%float s) in
        if (Player.energy (player s) <=? 0)%Z then
          let s := set_player (player_energy 0 (player s)) s in
          playLoseSound (showLoseScreen (set_gameState lost s))
        else s
      else s
  | won => updateParticles s
  | _ => s
  end.

(** ** Screens and input *)

Definition showTitleScreen (s : State) : State :=
  set_gameState title (emit TitleView s).

Definition showHowToPlayScreen (s : State) : State :=
  emit HowToPlayView s.

Definition startGame (now : Z) (s : State) : State :=
  set_gameState playing (resetGame now (emit PlayView (initAudio s))).

Definition toggleMute (s : State) : State :=
  let s := set_isMuted (negb (isMuted s)) s in
  emit (MuteLabel (isMuted s)) s.

(** The [keydown] listener: [key] is [e.key]. *)
Definition keydown (key : string) (now : Z) (rnd : nat -> float) (s : State) : State :=
  let pressed k := String.eqb key k in
  (* Movement controls *)
  let s :=
    if pressed "w"%string || pressed "ArrowUp"%string then movePlayer rnd 0 (-1) s
    else if pressed "s"%string || pressed "ArrowDown"%string then movePlayer rnd 0 1 s
    else if pressed "a"%string || pressed "ArrowLeft"%string then movePlayer rnd (-1) 0 s
    else if pressed "d"%string || pressed "ArrowRight"%string then movePlayer rnd 1 0 s
    else s in
  (* Restart *)
  let s :=
    if pressed "r"%string || pressed "R"%string then
      match gameState s with playing => resetGame now s | _ => s end
    else s in
  (* Mute toggle *)
  if pressed "m"%string || pressed "M"%string then toggleMute s else s.

Inductive Button := playBtn | howToPlayBtn | backBtn | playAgainBtn | retryBtn | muteBtn.

Definition click (b : Button) (now : Z) (s : State) : State :=
  match b with
  | playBtn | playAgainBtn | retryBtn => startGame now s
  | howToPlayBtn => showHowToPlayScreen s
  | backBtn => showTitleScreen s
  | muteBtn => toggleMute s
  end.

(** What the browser can deliver to the script: an animation frame, a key or
    a click.  [now] is the clock at that moment and [rnd] the random numbers
    drawn while the event is handled. *)
Inductive Event :=
| Frame (now : Z)
| KeyDown (key : string) (now : Z) (rnd : nat -> float)
| Click (b : Button) (now : Z).

Definition handle (e : Event) (s : State) : State :=
  match e with
  | Frame now => gameLoop now s
  | KeyDown key now rnd => keydown key now rnd s
  | Click b now => click b now s
  end.

Fixpoint run (es : list Event) (s : State) : State :=
  match es with
  | [] => s
  | e :: es' => run es' (handle e s)
  end.

(** The states the running script can be in. *)
Inductive reachable : State -> Prop :=
| reachable_init : reachable init
| reachable_step : forall e s, reachable s -> reachable (handle e s).

(** [frames nows s]: consecutive frames, with no input in between. *)
Fixpoint frames (nows : list Z) (s : State) : State :=
  match nows with
  | [] => s
  | now :: rest => frames rest (gameLoop now s)
  end.

(** [n] consecutive calls of [updateHazard] on one hazard. *)
Fixpoint hazardAfter (n : nat) (h : Hazard.t) : Hazard.t :=
  match n with
  | O => h
  | S n' => updateHazard (hazardAfter n' h)
  end.

(** * Vocabulary of the statements *)

(** ** Rectangles *)

Record Rect := mkRect { left : Q; top : Q; wide : Q; high : Q }.

Definition playerBox (s : State) (x y : Q) : Rect :=
  mkRect x y (Player.size (player s)) (Player.size (player s)).

Definition wallBox (w : Wall.t) : Rect :=
  mkRect (Wall.x w) (Wall.y w) (Wall.width w) (Wall.height w).

Definition hazardBox (h : Hazard.t) : Rect :=
  mkRect (Hazard.x h) (Hazard.y h) (Hazard.width h) (Hazard.height h).

(** The interiors of [a] and [b] have a point in common. *)
Definition overlap (a b : Rect) : Prop :=
  left a < left b + wide b /\ left b < left a + wide a /\
  top a < top b + high b /\ top b < top a + high a.

(** The closed rectangles [a] and [b] have a point in common. *)
Definition meet (a b : Rect) : Prop :=
  left a <= left b + wide b /\ left b <= left a + wide a /\
  top a <= top b + high b /\ top b <= top a + high a.

(** [a] and [b] meet, but only along an edge or at a corner: a side of one
    lies on the line of the opposite side of the other. *)
Definition touching (a b : Rect) : Prop :=
  meet a b /\
  (left a + wide a == left b \/ left b + wide b == left a \/
   top a + high a == top b \/ top b + high b == top a).

(** ** Moves *)

(** The candidate position computed by [movePlayer], and the state with the
    player placed there (nothing else changed). *)
Definition candidateX (dx : Q) (s : State) : Q :=
  Player.x (player s) + dx * Player.speed (player s).

Definition candidateY (dy : Q) (s : State) : Q :=
  Player.y (player s) + dy * Player.speed (player s).

Definition moved (dx dy : Q) (s : State) : State :=
  set_player (player_at (candidateX dx s) (candidateY dy s) (player s)) s.

(** A move is successful when the game is on and the candidate box is free
    of walls. *)
Definition successful (dx dy : Q) (s : State) : Prop :=
  gameState s = playing /\
  checkWallCollision s (candidateX dx s) (candidateY dy s) = false.

(** The state after the bookkeeping of a successful move: position, step
    counter, energy and the move sound. *)
Definition stepped (dx dy : Q) (s : State) : State :=
  playMoveSound
    (set_player
       (player_energy (Player.energy (player s) - 1)%Z
          (player_steps (Player.steps (player s) + 1)%Z
             (player_at (candidateX dx s) (candidateY dy s) (player s)))) s).




(** ** Frames *)

(** The updates every playing frame makes before the collision test. *)
Definition advanced (now : Z) (s : State) : State :=
  updateParticles (updateHUD (updateTimer now (updateHazards (decayShake s)))).

(** The player's box overlaps some hazard once this frame's hazard motion
    has been applied: the test made by [gameLoop] in a playing frame. *)
Definition contact (s : State) : bool :=
  checkHazardCollision (updateHazards s).

(** The hazards that the player's box overlaps when [gameLoop] makes its
    test. *)
Definition overlapping (s : State) : list Hazard.t :=
  filter (hitsHazard (updateHazards s)) (hazards (updateHazards s)).

(** The player is in contact with a hazard in each of the consecutive
    playing frames [nows], started in [s]. *)
Fixpoint sustainedContact (nows : list Z) (s : State) : Prop :=
  match nows with
  | [] => True
  | now :: rest =>
      gameState s = playing /\ contact s = true /\
      sustainedContact rest (gameLoop now s)
  end.

(** What every reachable state satisfies: the hazard array keeps its three
    elements, the energy is not negative, and while the game is on the energy
    is positive and no particle is alive. *)
Definition Inv (s : State) : Prop :=
  List.length (hazards s) = 3%nat /\
  (0 <= Player.energy (player s))%Z /\
  (gameState s = playing ->
   (1 <= Player.energy (player s))%Z /\ particles s = []).

(** ** Hazard motion *)

(** The bounce test of [updateHazards], on the position a hazard has. *)
Definition outsideb (h : Hazard.t) : bool :=
  Qltb (Hazard.x h) 30 || Qgtb (Hazard.x h + Hazard.width h) 770.

(** The hazard is beyond a margin: its left side left of 30 or its right side
    right of 770. *)
Definition outside (h : Hazard.t) : Prop :=
  Hazard.x h < 30 \/ 770 < Hazard.x h + Hazard.width h.

(** The invariant of the bouncing motion: heading right, the hazard is at
    most one step left of the left margin and inside the right one; heading
    left, the mirror image.  The track is long enough for the hazard to be
    back inside both margins one frame after a bounce. *)
Definition on_track (h : Hazard.t) : Prop :=
  0 <= Hazard.speedX h /\
  Hazard.width h + 2 * Hazard.speedX h <= 740 /\
  ((Hazard.direction h == 1 /\
    30 - Hazard.speedX h <= Hazard.x h /\ Hazard.x h + Hazard.width h <= 770) \/
   (Hazard.direction h == -1 /\
    30 <= Hazard.x h /\ Hazard.x h + Hazard.width h <= 770 + Hazard.speedX h)).

(** [h] is the hazard [h0] of the initial array somewhere on its track: the
    fields that no code assigns are those of [h0]. *)
Definition same_hazard (h0 h : Hazard.t) : Prop :=
  Hazard.y h = Hazard.y h0 /\
  Hazard.width h = Hazard.width h0 /\
  Hazard.height h = Hazard.height h0 /\
  Hazard.speedX h = Hazard.speedX h0 /\
  Hazard.speedY h = Hazard.speedY h0 /\
  on_track h.

(** The hazard array holds the three hazards, each somewhere on its track. *)
Definition hazards_on_track (s : State) : Prop :=
  Forall2 same_hazard initialHazards (hazards s).

(** ** Particles *)

(** The life of a particle of a burst after [k] updates. *)
Definition lifeAfter (k : nat) : float :=
  Nat.iter k (fun l => l - 0.02)%float 1%float.

(** What binary64 arithmetic gives for the fifty subtractions: the life is
    positive and decreasing through update 49, and not positive after
    update 50 (it is then about -6.2e-16). *)
Definition decay_schedule : bool :=
  forallb (fun k => PrimFloat.ltb 0 (lifeAfter k) &&
                    negb (PrimFloat.leb (lifeAfter k) 0) &&
                    PrimFloat.ltb (lifeAfter (S k)) (lifeAfter k))
          (seq 0 50) &&
  PrimFloat.leb (lifeAfter 50) 0.

(** All the particles of [ps] have life [l]. *)
Definition lives (l : float) (ps : list Particle.t) : Prop :=
  Forall (fun p => Particle.life p = l) ps.

(** ** Sample games *)

(** A key press with the clock at 0 and every random draw equal to 0.5. *)
Definition press (key : string) : Event := KeyDown key 0 (fun _ => 0.5%float).

(** One step left of the goal cell with one unit of energy left.  The state
    is set up by hand, as a test fixture would: no game gets there
    ([winning_move_leaves_odd_energy]). *)
Definition beside_goal : State :=
  set_player (Player.mk 690 70 30 40 1 42) (startGame 0 init).

(** Start, four steps up to (50, 390), then wait: the second hazard comes
    from the right and reaches the pig in frame 147.  [under_hazard n] is the
    state [n] frames after frame 146. *)
Definition under_hazard (n : nat) : State :=
  run (Click playBtn 0 :: repeat (press "w") 4 ++ repeat (Frame 0) (146 + n)) init.

(** A way to the goal: 43 steps around the three inner walls, typed before
    any frame is drawn. *)
Definition winning_run : list Event :=
  Click playBtn 0 ::
  repeat (press "d") 8 ++ repeat (press "w") 10 ++ repeat (press "d") 5 ++
  repeat (press "s") 7 ++ repeat (press "d") 4 ++ repeat (press "w") 9.

(** * Properties *)

(** ** Comparisons *)

Lemma Qltb_lt (a b : Q) : Qltb a b = true <-> a < b.
Proof. unfold Qltb, Qlt. apply Z.ltb_lt. Qed.

Lemma Qltb_ge (a b : Q) : Qltb a b = false <-> b <= a.
Proof. unfold Qltb, Qle. rewrite Z.ltb_ge. reflexivity. Qed.

Lemma Qgtb_gt (a b : Q) : Qgtb a b = true <-> b < a.
Proof. apply Qltb_lt. Qed.

(** ** The tests against one rectangle and against the lists *)

Lemma hitsWall_overlap (s : State) (x y : Q) (wall : Wall.t) :
  hitsWall s x y wall = true <-> overlap (playerBox s x y) (wallBox wall).
Proof.
  unfold hitsWall, overlap, Qgtb; cbn.
  rewrite !andb_true_iff, !Qltb_lt. tauto.
Qed.

Lemma hitsHazard_overlap (s : State) (hazard : Hazard.t) :
  hitsHazard s hazard = true <->
  overlap (playerBox s (Player.x (player s)) (Player.y (player s)))
          (hazardBox hazard).
Proof.
  unfold hitsHazard, overlap, Qgtb; cbn.
  rewrite !andb_true_iff, !Qltb_lt. tauto.
Qed.

Lemma touching_not_overlap (a b : Rect) : touching a b -> ~ overlap a b.
Proof.
  unfold touching, overlap. intros [_ Hedge] (H1 & H2 & H3 & H4).
  destruct Hedge as [E | [E | [E | E]]]; lra.
Qed.

Lemma checkWallCollision_true (s : State) (x y : Q) :
  checkWallCollision s x y = true <->
  exists wall, In wall walls /\ overlap (playerBox s x y) (wallBox wall).
Proof.
  unfold checkWallCollision. rewrite existsb_exists.
  split; intros (w & Hin & H); exists w; split; auto; now apply hitsWall_overlap.
Qed.

Lemma checkHazardCollision_true (s : State) :
  checkHazardCollision s = true <->
  exists hazard, In hazard (hazards s) /\
    overlap (playerBox s (Player.x (player s)) (Player.y (player s)))
            (hazardBox hazard).
Proof.
  unfold checkHazardCollision. rewrite existsb_exists.
  split; intros (h & Hin & H); exists h; split; auto; now apply hitsHazard_overlap.
Qed.

Lemma existsb_false {A : Type} (f : A -> bool) (l : list A) :
  (forall a, In a l -> f a = false) -> existsb f l = false.
Proof.
  induction l as [| a l IH]; intros H; cbn; [reflexivity |].
  rewrite (H a (or_introl eq_refl)), IH; auto.
  intros b Hb. apply H. now right.
Qed.

Lemma overlap_meet (a b : Rect) : overlap a b -> meet a b.
Proof. unfold overlap, meet. intros (H1 & H2 & H3 & H4). repeat split; lra. Qed.

(** Evaluation of closed statements about rationals and states. *)
Ltac by_evaluation :=
  vm_compute;
  repeat match goal with
         | |- _ /\ _ => split
         | |- _ = _ => reflexivity
         | |- _ -> False => let H := fresh in intro H; discriminate H
         | |- ~ _ => let H := fresh in intro H; discriminate H
         end.

(** ** Rejected moves *)

Lemma movePlayer_blocked (rnd : nat -> float) (dx dy : Q) (s : State) :
  checkWallCollision s (candidateX dx s) (candidateY dy s) = true ->
  movePlayer rnd dx dy s = s.
Proof.
  intros H. unfold movePlayer. destruct (gameState s); try reflexivity.
  cbv zeta. fold (candidateX dx s) (candidateY dy s). now rewrite H.
Qed.

(** C4.  A move whose target box overlaps some wall is rejected and changes
    nothing: the state returned is the state received, so the player's
    position, energy and step counter are the same (and no call to the audio
    or the screens has been made). *)
Theorem wall_collision_rejects_move (rnd : nat -> float) (dx dy : Q) (s : State) :
  (exists wall, In wall walls /\
     overlap (playerBox s (candidateX dx s) (candidateY dy s)) (wallBox wall)) ->
  let s' := movePlayer rnd dx dy s in
  s' = s /\
  Player.x (player s') = Player.x (player s) /\
  Player.y (player s') = Player.y (player s) /\
  Player.energy (player s') = Player.energy (player s) /\
  Player.steps (player s') = Player.steps (player s).
Proof.
  intros H s'. assert (E : s' = s).
  { apply movePlayer_blocked. now apply checkWallCollision_true. }
  rewrite E. repeat split.
Qed.

(** At the start of a game a step to the left runs into the left wall. *)
Lemma wall_collision_rejects_move_witness :
  let s := startGame 0 init in
  movePlayer (fun _ => 0.5%float) (-1) 0 s = s.
Proof.
  intros s.
  apply (wall_collision_rejects_move (fun _ => 0.5%float) (-1) 0 s).
  exists (Wall.mk 0 0 20 600). split.
  - right; right; left; reflexivity.
  - by_evaluation.
Defined.

(** ** Strictness of the overlap tests *)

(** C8.  The two overlap tests are strict.  Against one rectangle: when the
    player's box and a wall (a hazard) merely touch, the test is false.  For
    the functions: when every wall (hazard) that the box meets is merely
    touched, no collision is reported. *)
Theorem overlap_tests_are_strict (s : State) (x y : Q) :
  let here := playerBox s (Player.x (player s)) (Player.y (player s)) in
  (forall wall, touching (playerBox s x y) (wallBox wall) ->
     hitsWall s x y wall = false) /\
  (forall hazard, touching here (hazardBox hazard) ->
     hitsHazard s hazard = false) /\
  ((forall wall, In wall walls -> meet (playerBox s x y) (wallBox wall) ->
      touching (playerBox s x y) (wallBox wall)) ->
   checkWallCollision s x y = false) /\
  ((forall hazard, In hazard (hazards s) -> meet here (hazardBox hazard) ->
      touching here (hazardBox hazard)) ->
   checkHazardCollision s = false).
Proof.
  intros here.
  assert (W : forall wall, touching (playerBox s x y) (wallBox wall) ->
                           hitsWall s x y wall = false).
  { intros wall T. apply not_true_is_false. intros H.
    apply hitsWall_overlap in H. exact (touching_not_overlap _ _ T H). }
  assert (Hz : forall hazard, touching here (hazardBox hazard) ->
                              hitsHazard s hazard = false).
  { intros hazard T. apply not_true_is_false. intros H.
    apply hitsHazard_overlap in H. exact (touching_not_overlap _ _ T H). }
  repeat split; auto.
  - intros H. apply existsb_false. intros wall Hin.
    destruct (hitsWall s x y wall) eqn:E; [| reflexivity].
    rewrite <- E. apply W, H; auto.
    apply overlap_meet. now apply hitsWall_overlap.
  - intros H. apply existsb_false. intros hazard Hin.
    destruct (hitsHazard s hazard) eqn:E; [| reflexivity].
    rewrite <- E. apply Hz, H; auto.
    apply overlap_meet. now apply hitsHazard_overlap.
Qed.

(** Closed instances of [meet] and [touching]. *)
Ltac refute_meet M :=
  exfalso; vm_compute in M;
  let M1 := fresh in let M2 := fresh in let M3 := fresh in let M4 := fresh in
  destruct M as (M1 & M2 & M3 & M4);
  first [ now apply M1 | now apply M2 | now apply M3 | now apply M4 ].

Ltac prove_touching :=
  split;
  [ by_evaluation
  | vm_compute;
    first [ left; reflexivity
          | right; left; reflexivity
          | right; right; left; reflexivity
          | right; right; right; reflexivity ] ].

(** At the start the pig stands on the bottom wall: its box ends at [y = 580],
    where the wall begins.  After 8 steps right, 10 up, 4 right and 3 down it
    is at (530, 270), its lower side on the line [y = 300] of the upper side
    of the third hazard. *)
Lemma overlap_tests_are_strict_witness :
  let s0 := startGame 0 init in
  let s1 := run (Click playBtn 0 ::
                 repeat (press "d") 8 ++ repeat (press "w") 10 ++
                 repeat (press "d") 4 ++ repeat (press "s") 3) init in
  let h3 := Hazard.mk 500 300 80 20 3 0 1 in
  hitsWall s0 50 550 (Wall.mk 0 580 800 20) = false /\
  checkWallCollision s0 50 550 = false /\
  hitsHazard s1 h3 = false /\
  checkHazardCollision s1 = false.
Proof.
  intros s0 s1 h3.
  destruct (overlap_tests_are_strict s0 50 550) as (W & _ & WL & _).
  destruct (overlap_tests_are_strict s1 0 0) as (_ & Hz & _ & HL).
  split; [| split; [| split]].
  - apply W. prove_touching.
  - apply WL. intros wall Hin M.
    repeat (destruct Hin as [<- | Hin];
            [ first [ refute_meet M | prove_touching ] |]).
    destruct Hin.
  - apply Hz. prove_touching.
  - apply HL. intros hazard Hin M.
    vm_compute in Hin.
    repeat (destruct Hin as [<- | Hin];
            [ first [ refute_meet M | prove_touching ] |]).
    destruct Hin.
Defined.

(** ** Successful moves *)

Lemma checkGoalReached_ext (s1 s2 : State) :
  Player.x (player s1) = Player.x (player s2) ->
  Player.y (player s1) = Player.y (player s2) ->
  Player.size (player s1) = Player.size (player s2) ->
  checkGoalReached s1 = checkGoalReached s2.
Proof. unfold checkGoalReached. intros -> -> ->. reflexivity. Qed.

(** [movePlayer] on a successful move, with its two checks made explicit. *)
Lemma movePlayer_success (rnd : nat -> float) (dx dy : Q) (s : State) :
  successful dx dy s ->
  movePlayer rnd dx dy s =
  let s1 := if (Player.energy (player s) - 1 <=? 0)%Z
            then playLoseSound (showLoseScreen (set_gameState lost (stepped dx dy s)))
            else stepped dx dy s in
  if checkGoalReached (moved dx dy s)
  then createConfetti rnd (playWinSound (showWinScreen (set_gameState won s1)))
  else s1.
Proof.
  intros [Hplay Hwall]. unfold movePlayer. rewrite Hplay. cbv zeta.
  fold (candidateX dx s) (candidateY dy s). rewrite Hwall. cbn [negb].
  change (Player.energy (player (playMoveSound _)) <=? 0)%Z
    with (Player.energy (player s) - 1 <=? 0)%Z.
  fold (stepped dx dy s).
  destruct (Player.energy (player s) - 1 <=? 0)%Z.
  - rewrite (checkGoalReached_ext _ (moved dx dy s)); reflexivity.
  - rewrite (checkGoalReached_ext _ (moved dx dy s)); reflexivity.
Qed.


(** C1.  When a successful move brings the energy to 0 and the player onto
    the goal, the game is [won] after the move.  The exhaustion check has run
    first (the lose screen and the lose sound are in the log), and the goal
    check after it has replaced [lost] by [won]. *)
Theorem goal_overrides_energy_exhaustion
        (rnd : nat -> float) (dx dy : Q) (s : State) :
  successful dx dy s ->
  (Player.energy (player s) - 1 = 0)%Z ->
  checkGoalReached (moved dx dy s) = true ->
  let s' := movePlayer rnd dx dy s in
  gameState s' = won /\
  Player.energy (player s') = 0%Z /\
  log s' = (log s ++ [MoveSound; LoseScreen; LoseSound; WinScreen; WinSound])%list.
Proof.
  intros Hs He Hg s'. subst s'. rewrite (movePlayer_success rnd dx dy s Hs).
  cbv zeta. rewrite Hg, He. cbn [Z.leb Z.compare].
  repeat split.
  - cbn. exact He.
  - cbn. rewrite <- !app_assoc. reflexivity.
Qed.

Lemma goal_overrides_energy_exhaustion_witness :
  gameState (movePlayer (fun _ => 0.5%float) 1 0 beside_goal) = won.
Proof.
  apply (goal_overrides_energy_exhaustion (fun _ => 0.5%float) 1 0 beside_goal).
  - split; reflexivity.
  - reflexivity.
  - reflexivity.
Defined.


(** C5.  Every successful move adds exactly 1 to the step counter and takes
    exactly 1 from the energy (also when it wins or loses the game), and puts
    the player on the candidate position.  In particular five moves to the
    right from the spawn point (50, 550) are all unobstructed and end at
    (250, 550) with 5 steps and energy 95. *)
Theorem successful_move_costs_one :
  (forall (rnd : nat -> float) (dx dy : Q) (s : State),
      successful dx dy s ->
      let s' := movePlayer rnd dx dy s in
      Player.steps (player s') = (Player.steps (player s) + 1)%Z /\
      Player.energy (player s') = (Player.energy (player s) - 1)%Z /\
      Player.x (player s') = candidateX dx s /\
      Player.y (player s') = candidateY dy s) /\
  (forall (rnd : nat -> float) (now : Z),
      let s0 := startGame now init in
      let s5 := Nat.iter 5 (movePlayer rnd 1 0) s0 in
      (Player.x (player s0), Player.y (player s0)) = (50, 550) /\
      (forall k, (k < 5)%nat ->
                 successful 1 0 (Nat.iter k (movePlayer rnd 1 0) s0)) /\
      (Player.x (player s5), Player.y (player s5)) = (250, 550) /\
      Player.steps (player s5) = 5%Z /\
      Player.energy (player s5) = 95%Z /\
      gameState s5 = playing).
Proof.
  split.
  - intros rnd dx dy s Hs s'. subst s'.
    rewrite (movePlayer_success rnd dx dy s Hs). cbv zeta.
    destruct (checkGoalReached (moved dx dy s));
      destruct (Player.energy (player s) - 1 <=? 0)%Z; repeat split.
  - intros rnd now s0 s5. split; [reflexivity | split].
    + intros k Hk.
      do 5 (destruct k as [| k]; [split; vm_compute; reflexivity |]).
      lia.
    + vm_compute. repeat split.
Qed.

Lemma successful_move_costs_one_witness :
  let s := startGame 0 init in
  let s' := movePlayer (fun _ => 0.5%float) 0 (-1) s in
  Player.steps (player s') = 1%Z /\ Player.energy (player s') = 99%Z /\
  Player.x (player s') = 50 /\ Player.y (player s') = 510.
Proof.
  intros s s'. subst s'.
  destruct (proj1 successful_move_costs_one (fun _ => 0.5%float) 0 (-1) s)
    as (H1 & H2 & H3 & H4).
  - split; vm_compute; reflexivity.
  - split; [| split; [| split]].
    + rewrite H1. reflexivity.
    + rewrite H2. reflexivity.
    + rewrite H3. reflexivity.
    + rewrite H4. reflexivity.
Defined.

(** ** One frame *)

Lemma decayShake_fields (s : State) :
  gameState (decayShake s) = gameState s /\
  player (decayShake s) = player s /\
  hazards (decayShake s) = hazards s /\
  particles (decayShake s) = particles s /\
  log (decayShake s) = log s.
Proof.
  unfold decayShake. destruct (PrimFloat.ltb 0 (shakeAmount s)); repeat split.
Qed.

Lemma checkHazardCollision_ext (s1 s2 : State) :
  player s1 = player s2 -> hazards s1 = hazards s2 ->
  checkHazardCollision s1 = checkHazardCollision s2.
Proof.
  unfold checkHazardCollision, hitsHazard. intros -> ->. reflexivity.
Qed.

Lemma advanced_fields (now : Z) (s : State) :
  gameState s = playing ->
  gameState (advanced now s) = playing /\
  player (advanced now s) = player s /\
  hazards (advanced now s) = map updateHazard (hazards s) /\
  particles (advanced now s) = updateParticlesLoop (particles s).
Proof.
  intros Hplay. destruct (decayShake_fields s) as (Hg & Hp & Hh & Hps & _).
  unfold advanced, updateTimer.
  replace (gameState (updateHazards (decayShake s))) with playing
    by (cbn; congruence).
  cbn. rewrite Hp, Hh, Hps. rewrite Hg. auto.
Qed.

Lemma advanced_contact (now : Z) (s : State) :
  gameState s = playing ->
  checkHazardCollision (advanced now s) = contact s.
Proof.
  intros Hplay. destruct (advanced_fields now s Hplay) as (_ & Hp & Hh & _).
  apply checkHazardCollision_ext; [exact Hp | exact Hh].
Qed.

(** [gameLoop] in a playing frame, by cases on the collision test and on the
    energy left. *)
Lemma gameLoop_playing (now : Z) (s : State) :
  gameState s = playing ->
  let e := (Player.energy (player s) - 10)%Z in
  let hit := playHitSound
               (set_shakeAmount 10%float
                  (set_player (player_energy e (player s)) (advanced now s))) in
  gameLoop now s =
  if contact s then
    if (e <=? 0)%Z
    then playLoseSound
           (showLoseScreen
              (set_gameState lost (set_player (player_energy 0 (player hit)) hit)))
    else hit
  else advanced now s.
Proof.
  intros Hplay e hit. unfold gameLoop. cbv zeta.
  destruct (decayShake_fields s) as (Hg & _).
  rewrite Hg, Hplay. fold (advanced now s).
  rewrite (advanced_contact now s Hplay).
  destruct (advanced_fields now s Hplay) as (_ & Hp & _).
  destruct (contact s); [| reflexivity].
  cbn [player playHitSound emit set_shakeAmount set_player player_energy
       Player.energy].
  rewrite Hp. reflexivity.
Qed.

Lemma gameLoop_playing_result (now : Z) (s : State) :
  gameState s = playing ->
  let e := Player.energy (player s) in
  let s' := gameLoop now s in
  Player.energy (player s') =
    (if contact s then (if (e - 10 <=? 0)%Z then 0 else e - 10) else e)%Z /\
  gameState s' =
    (if contact s && (e - 10 <=? 0)%Z then lost else playing) /\
  Player.steps (player s') = Player.steps (player s) /\
  hazards s' = map updateHazard (hazards s) /\
  particles s' = updateParticlesLoop (particles s).
Proof.
  intros Hplay e s'. subst s'. rewrite (gameLoop_playing now s Hplay). cbv zeta.
  destruct (advanced_fields now s Hplay) as (Hg & Hp & Hh & Hps).
  fold e. destruct (contact s); [destruct (e - 10 <=? 0)%Z |]; cbn -[advanced];
    rewrite ?Hp, ?Hh, ?Hps, ?Hg; repeat split.
Qed.


Lemma gameLoop_won (now : Z) (s : State) :
  gameState s = won ->
  gameState (gameLoop now s) = won /\
  player (gameLoop now s) = player s /\
  hazards (gameLoop now s) = hazards s /\
  particles (gameLoop now s) = updateParticlesLoop (particles s).
Proof.
  intros Hwon. unfold gameLoop. cbv zeta.
  destruct (decayShake_fields s) as (Hg & Hp & Hh & Hps & _).
  rewrite Hg, Hwon. cbn. rewrite Hg, Hp, Hh, Hps. auto.
Qed.

Lemma gameLoop_idle (now : Z) (s : State) :
  gameState s = title \/ gameState s = lost ->
  gameState (gameLoop now s) = gameState s /\
  player (gameLoop now s) = player s /\
  hazards (gameLoop now s) = hazards s /\
  particles (gameLoop now s) = particles s.
Proof.
  intros H. unfold gameLoop. cbv zeta.
  destruct (decayShake_fields s) as (Hg & Hp & Hh & Hps & _).
  rewrite Hg. destruct H as [H | H]; rewrite H; cbn;
    rewrite ?Hg, ?Hp, ?Hh, ?Hps, ?H; auto.
Qed.

(** ** Reachable states *)

Lemma run_app (es1 es2 : list Event) (s : State) :
  run (es1 ++ es2) s = run es2 (run es1 s).
Proof. revert s. induction es1 as [| e es1 IH]; intros s; cbn; auto. Qed.

Lemma reachable_run (es : list Event) (s : State) :
  reachable s -> reachable (run es s).
Proof.
  revert s. induction es as [| e es IH]; intros s H; cbn; [exact H |].
  apply IH. now constructor.
Qed.

Lemma length_updateAt {A : Type} (i : nat) (f : A -> A) (l : list A) :
  List.length (updateAt i f l) = List.length l.
Proof.
  revert i. induction l as [| a l IH]; intros [| i]; cbn; auto.
Qed.

Lemma Inv_init : Inv init.
Proof. repeat split; cbn; try lia; intros; discriminate. Qed.

Lemma resetGame_fields (now : Z) (s : State) :
  gameState (resetGame now s) = gameState s /\
  Player.energy (player (resetGame now s)) = 100%Z /\
  Player.steps (player (resetGame now s)) = 0%Z /\
  particles (resetGame now s) = [] /\
  List.length (hazards (resetGame now s)) = List.length (hazards s).
Proof.
  repeat split. unfold resetGame. cbv zeta.
  cbn [hazards set_elapsedTime set_startTime set_shakeAmount set_particles
       set_hazards].
  now rewrite !length_updateAt.
Qed.

Lemma Inv_resetGame (now : Z) (s : State) : Inv s -> Inv (resetGame now s).
Proof.
  intros (Hlen & _). destruct (resetGame_fields now s) as (_ & He & _ & Hp & Hl).
  unfold Inv. rewrite He, Hp, Hl. repeat split; auto; lia.
Qed.

Lemma Inv_startGame (now : Z) (s : State) : Inv s -> Inv (startGame now s).
Proof.
  intros (Hlen & _). unfold startGame.
  destruct (resetGame_fields now (emit PlayView (initAudio s)))
    as (_ & He & _ & Hp & Hl).
  unfold Inv. cbn [hazards player particles set_gameState].
  rewrite He, Hp, Hl. repeat split; auto; lia.
Qed.

Lemma Inv_toggleMute (s : State) : Inv s -> Inv (toggleMute s).
Proof. intros H. exact H. Qed.

Lemma movePlayer_not_playing (rnd : nat -> float) (dx dy : Q) (s : State) :
  gameState s <> playing -> movePlayer rnd dx dy s = s.
Proof.
  intros H. unfold movePlayer. destruct (gameState s); congruence.
Qed.

Lemma Inv_movePlayer (rnd : nat -> float) (dx dy : Q) (s : State) :
  Inv s -> Inv (movePlayer rnd dx dy s).
Proof.
  intros HI. destruct (gameState s) eqn:Hg;
    try (rewrite movePlayer_not_playing; [exact HI | congruence]).
  destruct (checkWallCollision s (candidateX dx s) (candidateY dy s)) eqn:Hw.
  - now rewrite movePlayer_blocked.
  - rewrite (movePlayer_success rnd dx dy s (conj Hg Hw)). cbv zeta.
    destruct HI as (Hlen & He & Hplay). destruct (Hplay Hg) as [He1 Hps].
    unfold Inv.
    destruct (checkGoalReached (moved dx dy s));
      destruct (Player.energy (player s) - 1 <=? 0)%Z eqn:Hz;
      cbn; repeat split; try lia; try discriminate; auto.
Qed.

Lemma Inv_gameLoop (now : Z) (s : State) : Inv s -> Inv (gameLoop now s).
Proof.
  intros (Hlen & He & Hplay). unfold Inv.
  destruct (gameState s) eqn:Hg.
  - destruct (gameLoop_idle now s (or_introl Hg)) as (G & P & H & Ps).
    rewrite G, P, H, Hg. repeat split; auto; discriminate.
  - destruct (Hplay eq_refl) as [He1 Hps].
    destruct (gameLoop_playing_result now s Hg) as (E & G & _ & H & Ps).
    rewrite E, G, H, Ps, Hps, length_map.
    destruct (contact s); cbn;
      [destruct (Player.energy (player s) - 10 <=? 0)%Z eqn:Hz |];
      repeat split; auto; try lia; try discriminate;
      apply Z.leb_gt in Hz; lia.
  - destruct (gameLoop_won now s Hg) as (G & P & H & Ps).
    rewrite G, P, H. repeat split; auto; discriminate.
  - destruct (gameLoop_idle now s (or_intror Hg)) as (G & P & H & Ps).
    rewrite G, P, H, Hg. repeat split; auto; discriminate.
Qed.

Lemma Inv_keydown (key : string) (now : Z) (rnd : nat -> float) (s : State) :
  Inv s -> Inv (keydown key now rnd s).
Proof.
  intros HI. unfold keydown. cbv zeta.
  repeat match goal with
         | |- context [(String.eqb key ?a || String.eqb key ?b)%bool] =>
             destruct (String.eqb key a || String.eqb key b)%bool
         end;
    repeat match goal with
           | |- context [match gameState ?x with _ => _ end] =>
               destruct (gameState x)
           end;
    repeat first [ exact HI | simple apply Inv_toggleMute
                 | simple apply Inv_resetGame | simple apply Inv_movePlayer ].
Qed.

Lemma Inv_handle (e : Event) (s : State) : Inv s -> Inv (handle e s).
Proof.
  intros HI. destruct e as [now | key now rnd | b now]; cbn [handle].
  - now apply Inv_gameLoop.
  - now apply Inv_keydown.
  - destruct b; cbn [click];
      try (simple apply Inv_startGame; exact HI);
      try (simple apply Inv_toggleMute; exact HI).
    + exact HI.
    + destruct HI as (Hlen & He & _). repeat split; auto; discriminate.
Qed.

Lemma reachable_Inv (s : State) : reachable s -> Inv s.
Proof.
  induction 1 as [| e s _ IH]; [exact Inv_init | now apply Inv_handle].
Qed.

Lemma hazards_length (s : State) :
  reachable s -> List.length (hazards s) = 3%nat.
Proof. intros H. apply (reachable_Inv s H). Qed.

(** ** The grid and the parity of the energy *)

















(** ** Energy *)

(** C3.  The energy stored in a reachable state is never negative, after a
    frame as after any other event.  A playing frame in which the player
    touches a hazard with 10 or less energy left (so that the penalty brings
    it to 0 or below) ends with energy 0 and state [lost]. *)
Theorem energy_never_negative (s : State) :
  reachable s ->
  (0 <= Player.energy (player s))%Z /\
  (forall e, 0 <= Player.energy (player (handle e s)))%Z /\
  (forall now,
      gameState s = playing ->
      contact s = true ->
      (Player.energy (player s) - 10 <= 0)%Z ->
      Player.energy (player (gameLoop now s)) = 0%Z /\
      gameState (gameLoop now s) = lost).
Proof.
  intros Hr. split; [| split].
  - apply (reachable_Inv s Hr).
  - intros e. apply (reachable_Inv (handle e s)). now constructor.
  - intros now Hplay Hc He.
    destruct (gameLoop_playing_result now s Hplay) as (E & G & _).
    rewrite E, G, Hc. apply Z.leb_le in He. rewrite He. split; reflexivity.
Qed.

Lemma under_hazard_reachable (n : nat) : reachable (under_hazard n).
Proof. apply reachable_run, reachable_init. Qed.

(** After nine hits 6 units of energy are left; the tenth hit ends the game
    with energy 0, not -4. *)
Lemma energy_never_negative_witness :
  Player.energy (player (under_hazard 9)) = 6%Z /\
  Player.energy (player (gameLoop 0 (under_hazard 9))) = 0%Z /\
  gameState (gameLoop 0 (under_hazard 9)) = lost.
Proof.
  split; [vm_compute; reflexivity |].
  apply (energy_never_negative (under_hazard 9) (under_hazard_reachable 9)).
  - vm_compute; reflexivity.
  - vm_compute; reflexivity.
  - vm_compute. intros H; discriminate H.
Defined.

Lemma sustainedContact_energy (nows : list Z) :
  forall s, nows <> [] -> sustainedContact nows s ->
  let e' := (Player.energy (player s) - 10 * Z.of_nat (List.length nows))%Z in
  Player.energy (player (frames nows s)) = Z.max 0 e' /\
  gameState (frames nows s) = if (e' <=? 0)%Z then lost else playing.
Proof.
  induction nows as [| now rest IH]; intros s Hne Hs; [congruence |].
  destruct Hs as (Hplay & Hc & Hrest).
  destruct (gameLoop_playing_result now s Hplay) as (E & G & _).
  rewrite Hc in E, G. cbn [andb] in G.
  destruct rest as [| now2 rest].
  - cbn [frames List.length]. rewrite E, G.
    change (Z.of_nat 1) with 1%Z. rewrite Z.mul_1_r.
    destruct (Player.energy (player s) - 10 <=? 0)%Z eqn:Hz; split; auto; lia.
  - assert (Hp' : gameState (gameLoop now s) = playing) by apply Hrest.
    assert (Hz : (Player.energy (player s) - 10 <=? 0)%Z = false).
    { destruct (Player.energy (player s) - 10 <=? 0)%Z; congruence. }
    rewrite Hz in E.
    specialize (IH (gameLoop now s) ltac:(discriminate) Hrest).
    cbv zeta in IH. rewrite E in IH.
    change (frames (now :: now2 :: rest) s)
      with (frames (now2 :: rest) (gameLoop now s)).
    replace (Player.energy (player s) -
             10 * Z.of_nat (List.length (now :: now2 :: rest)))%Z
      with (Player.energy (player s) - 10 -
            10 * Z.of_nat (List.length (now2 :: rest)))%Z.
    + exact IH.
    + change (List.length (now :: now2 :: rest))
        with (S (List.length (now2 :: rest))). lia.
Qed.

(** C6.  [K >= 1] consecutive playing frames, each with the player in contact
    with a hazard, take 10 each: the energy [e] becomes [e - 10 K], or 0 when
    that is not positive (the clamp, which also ends the game).  The penalty
    does not depend on whether there was contact the frame before. *)
Theorem sustained_contact_costs_ten_per_frame (nows : list Z) (s : State) :
  nows <> [] ->
  sustainedContact nows s ->
  let K := Z.of_nat (List.length nows) in
  let e := Player.energy (player s) in
  let s' := frames nows s in
  Player.energy (player s') = Z.max 0 (e - 10 * K) /\
  (10 * K < e -> Player.energy (player s') = e - 10 * K /\ gameState s' = playing)%Z /\
  (e <= 10 * K -> Player.energy (player s') = 0 /\ gameState s' = lost)%Z.
Proof.
  intros Hne Hs K e s'.
  destruct (sustainedContact_energy nows s Hne Hs) as (E & G).
  cbv zeta in E, G. fold K e s' in E, G.
  split; [exact E | split; intros H].
  - rewrite E, G. split; [lia |].
    destruct (e - 10 * K <=? 0)%Z eqn:Hz; [lia | reflexivity].
  - rewrite E, G. split; [lia |].
    destruct (e - 10 * K <=? 0)%Z eqn:Hz; [reflexivity | lia].
Qed.

(** Three frames under the second hazard: 96 - 30 = 66. *)
Lemma sustained_contact_costs_ten_per_frame_witness :
  Player.energy (player (under_hazard 0)) = 96%Z /\
  Player.energy (player (frames [0; 0; 0]%Z (under_hazard 0))) = 66%Z.
Proof.
  split; [vm_compute; reflexivity |].
  assert (Hs : sustainedContact [0; 0; 0]%Z (under_hazard 0)).
  { cbn [sustainedContact]. repeat split; vm_compute; reflexivity. }
  destruct (sustained_contact_costs_ten_per_frame
              [0; 0; 0]%Z (under_hazard 0) ltac:(discriminate) Hs)
    as (_ & H & _).
  apply H. vm_compute. reflexivity.
Defined.

Lemma existsb_filter {A : Type} (f : A -> bool) (l : list A) :
  existsb f l = true <-> (1 <= List.length (filter f l))%nat.
Proof.
  induction l as [| a l IH]; cbn.
  - split; [discriminate | lia].
  - destruct (f a); cbn; [split; [lia | reflexivity] | exact IH].
Qed.

Lemma contact_overlapping (s : State) :
  contact s = true <-> (1 <= List.length (overlapping s))%nat.
Proof. apply existsb_filter. Qed.

(** C10.  In a playing frame the hazard penalty is taken once, however many
    hazards the player overlaps: with [n >= 1] overlapping hazards (so also
    with two or more) the energy [e] becomes [e - 10], or 0 when that is not
    positive.  From 10 up the loss is exactly 10.  The hit sound is played
    once. *)
Theorem one_penalty_per_frame (now : Z) (s : State) :
  gameState s = playing ->
  (1 <= List.length (overlapping s))%nat ->
  let e := Player.energy (player s) in
  let s' := gameLoop now s in
  Player.energy (player s') = Z.max 0 (e - 10) /\
  (10 <= e -> Player.energy (player s') = e - 10)%Z /\
  log s' = (log (advanced now s) ++
            HitSound :: (if (e - 10 <=? 0)%Z then [LoseScreen; LoseSound] else []))%list.
Proof.
  intros Hplay Hn e s'. apply contact_overlapping in Hn.
  destruct (gameLoop_playing_result now s Hplay) as (E & _).
  fold e s' in E. rewrite Hn in E.
  split; [| split].
  - rewrite E. destruct (e - 10 <=? 0)%Z eqn:Hz; lia.
  - intros He. rewrite E. destruct (e - 10 <=? 0)%Z eqn:Hz; lia.
  - subst s'. rewrite (gameLoop_playing now s Hplay). cbv zeta.
    rewrite Hn. fold e.
    destruct (e - 10 <=? 0)%Z; cbn -[advanced];
      rewrite <- ?app_assoc; reflexivity.
Qed.

(** Two hazards placed over the spawn point: one frame costs 10, not 20. *)
Lemma one_penalty_per_frame_witness :
  let s := set_hazards [ Hazard.mk 40 540 100 20 2 0 1;
                         Hazard.mk 60 560 100 20 3 0 (-1) ]
                       (startGame 0 init) in
  List.length (overlapping s) = 2%nat /\
  Player.energy (player s) = 100%Z /\
  Player.energy (player (gameLoop 0 s)) = 90%Z.
Proof.
  intros s. split; [vm_compute; reflexivity |].
  split; [reflexivity |].
  assert (Hplay : gameState s = playing) by reflexivity.
  assert (Hn : (1 <= List.length (overlapping s))%nat)
    by (vm_compute; repeat constructor).
  destruct (one_penalty_per_frame 0 s Hplay Hn) as (_ & H & _).
  apply H. vm_compute. intros C; discriminate C.
Defined.

(** ** Hazard motion *)

Lemma outsideb_true (h : Hazard.t) : outsideb h = true <-> outside h.
Proof.
  unfold outsideb, outside, Qgtb. now rewrite orb_true_iff, !Qltb_lt.
Qed.

Lemma outsideb_false (h : Hazard.t) : outsideb h = false <-> ~ outside h.
Proof.
  rewrite <- outsideb_true. destruct (outsideb h); split; congruence.
Qed.

Lemma updateHazard_fields (h : Hazard.t) :
  let h' := updateHazard h in
  Hazard.width h' = Hazard.width h /\
  Hazard.speedX h' = Hazard.speedX h /\
  Hazard.y h' = Hazard.y h /\
  Hazard.height h' = Hazard.height h /\
  Hazard.x h' = Hazard.x h + Hazard.speedX h * Hazard.direction h /\
  Hazard.direction h' =
    (if outsideb h' then Hazard.direction h * -1 else Hazard.direction h).
Proof.
  unfold updateHazard. cbv zeta.
  change (Qltb _ 30 || Qgtb _ 770)%bool
    with (outsideb (hazard_x (Hazard.x h + Hazard.speedX h * Hazard.direction h) h)).
  destruct (outsideb (hazard_x _ h)) eqn:E; cbn; repeat split;
    unfold outsideb in *; cbn in *; now rewrite E.
Qed.

Lemma hazardAfter_constants (n : nat) (h : Hazard.t) :
  Hazard.width (hazardAfter n h) = Hazard.width h /\
  Hazard.speedX (hazardAfter n h) = Hazard.speedX h /\
  Hazard.y (hazardAfter n h) = Hazard.y h /\
  Hazard.height (hazardAfter n h) = Hazard.height h.
Proof.
  induction n as [| n (IW & IS & IY & IH)]; cbn [hazardAfter]; [repeat split |].
  destruct (updateHazard_fields (hazardAfter n h)) as (W & S & Y & H & _).
  rewrite W, S, Y, H. auto.
Qed.

Lemma on_track_initial (h : Hazard.t) : In h initialHazards -> on_track h.
Proof.
  intros [<- | [<- | [<- | []]]]; unfold on_track; cbn;
    (split; [lra | split; [lra |]]).
  - left. split; [reflexivity | lra].
  - right. split; [reflexivity | lra].
  - left. split; [reflexivity | lra].
Qed.

Lemma on_track_step (h : Hazard.t) : on_track h -> on_track (updateHazard h).
Proof.
  intros (Hs & Hw & Hd).
  destruct (updateHazard_fields h) as (W & S & _ & _ & X & D). cbv zeta in *.
  unfold on_track. rewrite W, S.
  split; [exact Hs | split; [exact Hw |]].
  destruct (outsideb (updateHazard h)) eqn:E.
  - apply outsideb_true in E. unfold outside in E. rewrite W, X in E.
    rewrite D, X. destruct Hd as [(Hd & Hl & Hr) | (Hd & Hl & Hr)]; rewrite Hd in *.
    + right. split; [reflexivity | lra].
    + left. split; [reflexivity | lra].
  - apply outsideb_false in E. unfold outside in E. rewrite W, X in E.
    rewrite D, X. destruct Hd as [(Hd & Hl & Hr) | (Hd & Hl & Hr)]; rewrite Hd in *.
    + left. split; [reflexivity | lra].
    + right. split; [reflexivity | lra].
Qed.

Lemma on_track_after (n : nat) (h : Hazard.t) :
  on_track h -> on_track (hazardAfter n h).
Proof.
  intros H. induction n as [| n IH]; cbn [hazardAfter]; [exact H |].
  now apply on_track_step.
Qed.

Lemma on_track_bounds (h : Hazard.t) :
  on_track h ->
  30 - Hazard.speedX h <= Hazard.x h /\
  Hazard.x h + Hazard.width h <= 770 + Hazard.speedX h.
Proof. intros (Hs & Hw & [(_ & Hl & Hr) | (_ & Hl & Hr)]); split; lra. Qed.

(** A hazard on track that is beyond a margin is back inside one frame
    later. *)
Lemma on_track_back_inside (h : Hazard.t) :
  on_track h -> outside h -> ~ outside (updateHazard h).
Proof.
  intros (Hs & Hw & Hd) Ho.
  destruct (updateHazard_fields h) as (W & _ & _ & _ & X & _). cbv zeta in *.
  unfold outside in *. rewrite W, X.
  destruct Hd as [(Hd & Hl & Hr) | (Hd & Hl & Hr)]; rewrite Hd; lra.
Qed.

Lemma same_hazard_step (h0 h : Hazard.t) :
  same_hazard h0 h -> same_hazard h0 (updateHazard h).
Proof.
  intros (Y & W & H & S & SY & T).
  destruct (updateHazard_fields h) as (W' & S' & Y' & H' & _).
  cbv zeta in *. unfold same_hazard.
  rewrite W', S', Y', H'.
  refine (conj Y (conj W (conj H (conj S (conj _ _))))).
  - unfold updateHazard. cbv zeta. now destruct (_ || _)%bool.
  - now apply on_track_step.
Qed.

Lemma hazards_on_track_init : hazards_on_track init.
Proof.
  unfold hazards_on_track. cbn [hazards init].
  assert (H : forall h, In h initialHazards -> same_hazard h h)
    by (intros h Hin; repeat split; now apply on_track_initial).
  unfold initialHazards in *.
  apply Forall2_cons; [apply H; cbn; auto |].
  apply Forall2_cons; [apply H; cbn; auto |].
  apply Forall2_cons; [apply H; cbn; auto |].
  apply Forall2_nil.
Qed.

Lemma hazards_on_track_updateHazards (s : State) :
  hazards_on_track s -> hazards_on_track (updateHazards s).
Proof.
  unfold hazards_on_track. cbn [hazards updateHazards set_hazards].
  generalize (hazards s) initialHazards.
  induction 1; cbn [map]; constructor; auto using same_hazard_step.
Qed.

Lemma Forall2_three {A B : Type} (R : A -> B -> Prop) (x1 x2 x3 : A) (l : list B) :
  Forall2 R [x1; x2; x3] l ->
  exists a b c, l = [a; b; c] /\ R x1 a /\ R x2 b /\ R x3 c.
Proof.
  intros H.
  inversion H as [| ? a ? l1 Ra H1]; subst.
  inversion H1 as [| ? b ? l2 Rb H2]; subst.
  inversion H2 as [| ? c ? l3 Rc H3]; subst.
  inversion H3; subst.
  exists a, b, c. auto.
Qed.

(** [resetGame] puts each hazard back on the start of its track. *)
Lemma hazards_on_track_resetGame (now : Z) (s : State) :
  hazards_on_track s -> hazards_on_track (resetGame now s).
Proof.
  unfold hazards_on_track, resetGame. cbv zeta.
  cbn [hazards set_elapsedTime set_startTime set_shakeAmount set_particles
       set_hazards].
  intros H. apply Forall2_three in H.
  destruct H as (a & b & c & -> & Ha & Hb & Hc). cbn [updateAt].
  destruct Ha as (Ya & Wa & Ha & Sa & SYa & _).
  destruct Hb as (Yb & Wb & Hb & Sb & SYb & _).
  destruct Hc as (Yc & Wc & Hc & Sc & SYc & _).
  assert (T : forall h w sp x d,
             Hazard.width h = w -> Hazard.speedX h = sp ->
             on_track (Hazard.mk x 0 w 0 sp 0 d) ->
             on_track (hazard_direction d (hazard_x x h))).
  { intros h w sp x d <- <- K. exact K. }
  apply Forall2_cons;
    [refine (conj Ya (conj Wa (conj Ha (conj Sa (conj SYa _))))) |].
  { apply (T a _ _ _ _ Wa Sa).
    unfold on_track; cbn. split; [lra | split; [lra |]].
    left. split; [reflexivity | lra]. }
  apply Forall2_cons;
    [refine (conj Yb (conj Wb (conj Hb (conj Sb (conj SYb _))))) |].
  { apply (T b _ _ _ _ Wb Sb).
    unfold on_track; cbn. split; [lra | split; [lra |]].
    right. split; [reflexivity | lra]. }
  apply Forall2_cons;
    [refine (conj Yc (conj Wc (conj Hc (conj Sc (conj SYc _))))) |].
  { apply (T c _ _ _ _ Wc Sc).
    unfold on_track; cbn. split; [lra | split; [lra |]].
    left. split; [reflexivity | lra]. }
  apply Forall2_nil.
Qed.

Lemma movePlayer_hazards (rnd : nat -> float) (dx dy : Q) (s : State) :
  hazards (movePlayer rnd dx dy s) = hazards s.
Proof.
  destruct (gameState s) eqn:Hg;
    try (rewrite movePlayer_not_playing; [reflexivity | congruence]).
  destruct (checkWallCollision s (candidateX dx s) (candidateY dy s)) eqn:Hw.
  - now rewrite movePlayer_blocked.
  - rewrite (movePlayer_success rnd dx dy s (conj Hg Hw)). cbv zeta.
    destruct (checkGoalReached (moved dx dy s));
      destruct (Player.energy (player s) - 1 <=? 0)%Z; reflexivity.
Qed.

Lemma gameLoop_hazards (now : Z) (s : State) :
  hazards (gameLoop now s) =
  match gameState s with
  | playing => map updateHazard (hazards s)
  | _ => hazards s
  end.
Proof.
  destruct (gameState s) eqn:Hg.
  - apply (gameLoop_idle now s (or_introl Hg)).
  - apply (gameLoop_playing_result now s Hg).
  - apply (gameLoop_won now s Hg).
  - apply (gameLoop_idle now s (or_intror Hg)).
Qed.

Lemma hazards_on_track_handle (e : Event) (s : State) :
  hazards_on_track s -> hazards_on_track (handle e s).
Proof.
  intros HI. destruct e as [now | key now rnd | b now]; cbn [handle].
  - unfold hazards_on_track. rewrite gameLoop_hazards.
    destruct (gameState s); try exact HI.
    exact (hazards_on_track_updateHazards s HI).
  - assert (M : forall dx dy, hazards_on_track (movePlayer rnd dx dy s))
      by (intros; unfold hazards_on_track; now rewrite movePlayer_hazards).
    unfold keydown. cbv zeta.
    repeat match goal with
           | |- context [(String.eqb key ?a || String.eqb key ?b)%bool] =>
               destruct (String.eqb key a || String.eqb key b)%bool
           end;
      repeat match goal with
             | |- context [match gameState ?x with _ => _ end] =>
                 destruct (gameState x)
             end;
      repeat first [ exact HI | simple apply M
                   | simple apply hazards_on_track_resetGame
                   | progress change (hazards_on_track (toggleMute ?x))
                       with (hazards_on_track x) ].
  - destruct b; cbn [click]; try exact HI;
      apply (hazards_on_track_resetGame now (emit PlayView (initAudio s)) HI).
Qed.

Lemma reachable_hazards_on_track (s : State) :
  reachable s -> hazards_on_track s.
Proof.
  induction 1 as [| e s _ IH];
    [exact hazards_on_track_init | now apply hazards_on_track_handle].
Qed.

(** In every reachable state each hazard is within one frame's travel of
    the margins. *)
Lemma hazards_within_margins (s : State) (h : Hazard.t) :
  reachable s -> In h (hazards s) ->
  30 - Hazard.speedX h <= Hazard.x h /\
  Hazard.x h + Hazard.width h <= 770 + Hazard.speedX h.
Proof.
  intros Hr Hin. pose proof (reachable_hazards_on_track s Hr) as H.
  unfold hazards_on_track in H. revert Hin.
  induction H as [| h0 h' l0 l Hh _ IH]; [intros [] | intros [<- | Hin]]; auto.
  apply on_track_bounds, Hh.
Qed.

Lemma on_track_direction (h : Hazard.t) :
  on_track h -> Hazard.direction h == 1 \/ Hazard.direction h == -1.
Proof. intros (_ & _ & [(Hd & _) | (Hd & _)]); auto. Qed.

(** C7.  Take one of the three hazards in its initial position and direction
    and let it move for any number [n] of frames; [before] is the hazard
    after [n] frames and [after] the hazard one frame later.
    - The position stays within one frame's travel of the margins:
      [30 - speedX <= x] and [x + width <= 770 + speedX], for ever.
    - The direction is 1 or -1, and the frame reverses it exactly when the
      position it has just computed is beyond a margin
      ([x < 30] or [x + width > 770]); otherwise it keeps it.
    - Such a frame is a crossing: the position before it was inside both
      margins. *)
Theorem hazard_motion_bounded (h : Hazard.t) (n : nat) :
  In h initialHazards ->
  let before := hazardAfter n h in
  let after := hazardAfter (S n) h in
  (30 - Hazard.speedX h <= Hazard.x before /\
   Hazard.x before + Hazard.width h <= 770 + Hazard.speedX h) /\
  Hazard.x after = Hazard.x before + Hazard.speedX h * Hazard.direction before /\
  (Hazard.direction before == 1 \/ Hazard.direction before == -1) /\
  (Hazard.direction after == - Hazard.direction before <-> outside after) /\
  (Hazard.direction after == Hazard.direction before <-> ~ outside after) /\
  (outside after -> ~ outside before).
Proof.
  intros Hin before after.
  assert (T : on_track before) by (apply on_track_after, on_track_initial, Hin).
  destruct (hazardAfter_constants n h) as (W & S & _).
  destruct (updateHazard_fields before) as (_ & _ & _ & _ & X & D).
  cbv zeta in X, D. fold before in W, S.
  change (updateHazard before) with after in *.
  destruct (on_track_bounds before T) as (Bl & Br). rewrite W, S in *.
  pose proof (on_track_direction before T) as Hd.
  assert (Hnz : ~ Hazard.direction before == - Hazard.direction before)
    by (destruct Hd as [Hd | Hd]; rewrite Hd; intros C; lra).
  split; [split; assumption |].
  split; [exact X |].
  split; [exact Hd |].
  destruct (outsideb after) eqn:E; rewrite D.
  - (* beyond a margin: the direction has been reversed *)
    apply outsideb_true in E.
    assert (R : Hazard.direction before * -1 == - Hazard.direction before)
      by ring.
    repeat split; intros; auto; try tauto.
    + rewrite R in *. exfalso. apply Hnz. now symmetry.
    + intros Hb. exact (on_track_back_inside before T Hb E).
  - (* inside: the direction is kept *)
    apply outsideb_false in E.
    repeat split; intros; auto; try tauto; reflexivity.
Qed.

(** The first hazard reaches the right margin in frame 286: [x] goes from 670
    to 672, beyond [770 - 100], and the direction is reversed. *)
Lemma hazard_motion_bounded_witness :
  let h := Hazard.mk 100 200 100 20 2 0 1 in
  Hazard.x (hazardAfter 286 h) == 672 /\
  Hazard.direction (hazardAfter 286 h) == - Hazard.direction (hazardAfter 285 h) /\
  30 - 2 <= Hazard.x (hazardAfter 285 h) /\
  Hazard.x (hazardAfter 285 h) + 100 <= 770 + 2.
Proof.
  intros h.
  destruct (hazard_motion_bounded h 285 (or_introl eq_refl))
    as ((Bl & Br) & X & _ & F & _).
  split; [rewrite X; vm_compute; reflexivity |].
  split; [| split; [exact Bl | exact Br]].
  apply F. right. vm_compute. reflexivity.
Defined.

(** ** Particles *)

Lemma confettiLoop_app (rnd : nat -> float) (n i : nat) (ps : list Particle.t) :
  confettiLoop rnd n i ps = ps ++ map (confetto rnd) (seq i n).
Proof.
  revert i ps. induction n as [| n IH]; intros i ps; cbn [confettiLoop seq map].
  - now rewrite app_nil_r.
  - rewrite IH, <- app_assoc. reflexivity.
Qed.

Lemma decay_schedule_holds : decay_schedule = true.
Proof. vm_compute. reflexivity. Qed.

Lemma lifeAfter_alive (k : nat) :
  (k < 50)%nat ->
  PrimFloat.ltb 0 (lifeAfter k) = true /\
  PrimFloat.leb (lifeAfter k) 0 = false /\
  PrimFloat.ltb (lifeAfter (S k)) (lifeAfter k) = true.
Proof.
  intros Hk. pose proof decay_schedule_holds as H. unfold decay_schedule in H.
  apply andb_true_iff in H. destruct H as [H _].
  rewrite forallb_forall in H. specialize (H k).
  rewrite in_seq in H. specialize (H ltac:(lia)).
  rewrite !andb_true_iff, negb_true_iff in H. tauto.
Qed.

Lemma lifeAfter_dead : PrimFloat.leb (lifeAfter 50) 0 = true.
Proof. vm_compute. reflexivity. Qed.

(** On particles of one age the loop keeps all or none. *)
Lemma updateParticlesLoop_uniform (l : float) (ps : list Particle.t) :
  lives l ps ->
  updateParticlesLoop ps =
  if PrimFloat.leb (l - 0.02) 0 then [] else map stepParticle ps.
Proof.
  induction 1 as [| p ps Hp _ IH]; cbn [updateParticlesLoop map].
  - now destruct (PrimFloat.leb _ _).
  - cbv zeta. rewrite IH. cbn [Particle.life stepParticle]. rewrite Hp.
    now destruct (PrimFloat.leb _ _).
Qed.

Lemma lives_step (l : float) (ps : list Particle.t) :
  lives l ps -> lives (l - 0.02) (map stepParticle ps).
Proof.
  induction 1 as [| p ps Hp _ IH]; constructor; auto.
  cbn. now rewrite Hp.
Qed.

(** A burst: [n] particles of life 1, updated [k] times. *)
Lemma burst_after (ps : list Particle.t) (k : nat) :
  lives 1 ps ->
  let ps' := Nat.iter k updateParticlesLoop ps in
  ((k < 50)%nat -> List.length ps' = List.length ps /\ lives (lifeAfter k) ps') /\
  ((50 <= k)%nat -> ps' = []).
Proof.
  intros H1. cbv zeta.
  induction k as [| k [IHa IHd]]; [cbn | rewrite Nat.iter_succ].
  - split; [intros _; split; [reflexivity | exact H1] | lia].
  - split.
    + intros Hk. destruct (IHa ltac:(lia)) as [Hlen Hl].
      rewrite (updateParticlesLoop_uniform _ _ Hl).
      change (lifeAfter k - 0.02)%float with (lifeAfter (S k)).
      destruct (lifeAfter_alive (S k) Hk) as (_ & -> & _).
      rewrite length_map. split; [exact Hlen |].
      apply (lives_step _ _ Hl).
    + intros Hk. destruct (Nat.eq_dec k 49) as [-> | Hne].
      * destruct (IHa ltac:(lia)) as [_ Hl].
        rewrite (updateParticlesLoop_uniform _ _ Hl).
        change (lifeAfter 49 - 0.02)%float with (lifeAfter 50).
        now rewrite lifeAfter_dead.
      * rewrite (IHd ltac:(lia)). reflexivity.
Qed.

Lemma frames_won (nows : list Z) (s : State) :
  gameState s = won ->
  gameState (frames nows s) = won /\
  particles (frames nows s) =
    Nat.iter (List.length nows) updateParticlesLoop (particles s).
Proof.
  revert s. induction nows as [| now rest IH]; intros s Hw; [auto |].
  destruct (gameLoop_won now s Hw) as (G & _ & _ & Ps).
  cbn [frames List.length]. destruct (IH _ G) as [G' P'].
  rewrite G', P', Ps, Nat.iter_succ_r. auto.
Qed.

Lemma lives_confetti (rnd : nat -> float) (i n : nat) :
  lives 1 (map (confetto rnd) (seq i n)).
Proof.
  revert i. induction n as [| n IH]; intros i; cbn [seq map].
  - constructor.
  - constructor; [reflexivity | apply IH].
Qed.

(** C9, as stated, fails: the particle count does not decrease from frame to
    frame.  After a win there are 50 particles; one frame later the decay has
    begun (the lives are below 1) and there are 50; another frame later there
    are still 50. *)
Lemma confetti_count_does_not_decrease :
  let s0 := run winning_run init in
  let s1 := gameLoop 0 s0 in
  let s2 := gameLoop 0 s1 in
  gameState s0 = won /\
  List.length (particles s0) = 50%nat /\
  forallb (fun p => PrimFloat.ltb (Particle.life p) 1) (particles s1) = true /\
  ~ (List.length (particles s2) < List.length (particles s1))%nat.
Proof.
  intros s0 s1 s2.
  assert (L1 : List.length (particles s1) = 50%nat) by (vm_compute; reflexivity).
  assert (L2 : List.length (particles s2) = 50%nat) by (vm_compute; reflexivity).
  split; [vm_compute; reflexivity |].
  split; [vm_compute; reflexivity |].
  split; [vm_compute; reflexivity |].
  rewrite L1, L2. lia.
Qed.

(** C9, amended.  A winning move made in a reachable state leaves exactly the
    50 particles of one burst, each with life 1.  In the frames that follow,
    every update takes [0.02] (in binary64 arithmetic) from each life, which
    strictly decreases; the 50 particles are all alive through update 49 and
    are all removed by update 50, so the count is 50 and then 0.  No particle
    whose life is 0 or less is ever left in the list. *)
Theorem confetti_burst (rnd : nat -> float) (dx dy : Q) (s : State) :
  reachable s ->
  successful dx dy s ->
  checkGoalReached (moved dx dy s) = true ->
  let s' := movePlayer rnd dx dy s in
  gameState s' = won /\
  particles s' = map (confetto rnd) (seq 0 50) /\
  List.length (particles s') = 50%nat /\
  lives 1 (particles s') /\
  forall nows : list Z,
    let k := List.length nows in
    let ps := particles (frames nows s') in
    ((k < 50)%nat ->
     List.length ps = 50%nat /\
     lives (lifeAfter k) ps /\
     lifeAfter (S k) = (lifeAfter k - 0.02)%float /\
     PrimFloat.ltb (lifeAfter (S k)) (lifeAfter k) = true) /\
    ((50 <= k)%nat -> ps = []) /\
    Forall (fun p => PrimFloat.leb (Particle.life p) 0 = false) ps.
Proof.
  intros Hr Hs Hg s'.
  destruct (reachable_Inv s Hr) as (_ & _ & Hplay).
  destruct (Hplay (proj1 Hs)) as [_ Hps].
  assert (G : gameState s' = won).
  { subst s'. rewrite (movePlayer_success rnd dx dy s Hs). cbv zeta.
    rewrite Hg. reflexivity. }
  assert (P : particles s' = map (confetto rnd) (seq 0 50)).
  { subst s'. rewrite (movePlayer_success rnd dx dy s Hs). cbv zeta.
    rewrite Hg. unfold createConfetti.
    cbn [particles set_particles]. rewrite confettiLoop_app.
    destruct (Player.energy (player s) - 1 <=? 0)%Z; cbn; now rewrite Hps. }
  assert (L : lives 1 (particles s')) by (rewrite P; apply lives_confetti).
  assert (N : List.length (particles s') = 50%nat)
    by (rewrite P, length_map, length_seq; reflexivity).
  repeat (split; [assumption |]).
  intros nows k ps.
  destruct (frames_won nows s' G) as [_ F]. fold k ps in F.
  destruct (burst_after (particles s') k L) as [A D]. rewrite <- F in A, D.
  split; [| split].
  - intros Hk. destruct (A Hk) as [A1 A2].
    destruct (lifeAfter_alive k Hk) as (_ & _ & Hlt).
    rewrite A1, N. auto.
  - exact D.
  - destruct (Nat.lt_ge_cases k 50) as [Hk | Hk].
    + destruct (A Hk) as [_ A2]. destruct (lifeAfter_alive k Hk) as (_ & Hle & _).
      eapply Forall_impl; [| exact A2]. cbn. intros p ->. exact Hle.
    + rewrite (D Hk). constructor.
Qed.

(** The last step of the shortest way, and the 49th and 50th frame after
    it. *)
Lemma confetti_burst_witness :
  let s := run (removelast winning_run) init in
  let s' := movePlayer (fun _ => 0.5%float) 0 (-1) s in
  gameState s' = won /\
  List.length (particles (frames (repeat 0%Z 49) s')) = 50%nat /\
  particles (frames (repeat 0%Z 50) s') = [].
Proof.
  intros s s'.
  assert (Hr : reachable s) by apply reachable_run, reachable_init.
  assert (Hs : successful 0 (-1) s) by (split; vm_compute; reflexivity).
  assert (Hg : checkGoalReached (moved 0 (-1) s) = true)
    by (vm_compute; reflexivity).
  destruct (confetti_burst (fun _ => 0.5%float) 0 (-1) s Hr Hs Hg)
    as (G & _ & _ & _ & F).
  split; [exact G | split].
  - apply (F (repeat 0%Z 49)). vm_compute. lia.
  - apply (F (repeat 0%Z 50)). vm_compute. lia.
Defined.
